(** * LULC_ISA: cloud masking and per-class area statistics

    A shallow embedding of the computations that [classification.js]
    performs itself on pixel values and samples:

    - [maskS2clouds] (lines 22-29): the QA60 cloud / cirrus bit test, the mask
      update and the division by 10000;
    - the area statistics (lines 142-160): the grouped sum of pixel areas by
      class and the conversion of every group to square kilometres;
    - the labelling of the training polygons (lines 78-81) and the split of
      the samples into a training and a testing set (lines 94-97).

    The Earth Engine operations the script calls ([bitwiseAnd], [eq], [and],
    [updateMask], [divide], [ee.Reducer.sum().group], [ee.List.map]) are
    modelled per pixel, in module [ee], after their documented behaviour. *)

From Stdlib Require Import ZArith List Bool String Lia Permutation Sorted.
From Stdlib Require Import PrimFloat Uint63 QArith Qcanon.
From Stdlib Require Floats.
Import ListNotations.

Local Open Scope Z_scope.

(** ** Numbers

    Earth Engine numbers and JavaScript numbers are IEEE 754 binary64 values.
    The operations the script uses are collected in an interface with two
    instances: [binary64], the numbers the script computes with, and [exact],
    the rationals, which is the arithmetic the algebraic laws hold in. *)

Class Number (num : Type) : Type := {
  zero : num;                  (* the initial value of a sum reducer *)
  add : num -> num -> num;     (* ee.Reducer.sum, accumulating *)
  divide : num -> num -> num;  (* ee.Image.divide, ee.Number.divide *)
  of_Z : Z -> num              (* an integer band value or literal as a number *)
}.

(** An integer of magnitude below 2^63 as a binary64 number; the literals
    of the script and the 16-bit band values are far below. *)
Definition float_of_Z (z : Z) : float :=
  if z <? 0 then PrimFloat.opp (PrimFloat.of_uint63 (Uint63.of_Z (- z)))
  else PrimFloat.of_uint63 (Uint63.of_Z z).

#[export] Instance binary64 : Number float := {
  zero := PrimFloat.zero;
  add := PrimFloat.add;
  divide := PrimFloat.div;
  of_Z := float_of_Z
}.

#[export] Instance exact : Number Qc := {
  zero := Q2Qc 0;
  add := Qcplus;
  divide := Qcdiv;
  of_Z := fun z => Q2Qc (inject_Z z)
}.

(** The laws of exact arithmetic that the area statistics rely on. *)
Class ExactArithmetic (num : Type) `{Number num} : Prop := {
  add_assoc : forall a b c : num, add a (add b c) = add (add a b) c;
  add_comm : forall a b : num, add a b = add b a;
  add_zero_l : forall a : num, add zero a = a;
  divide_add_distr : forall a b c : num,
      divide (add a b) c = add (divide a c) (divide b c);
  divide_zero_l : forall c : num, divide zero c = zero
}.

#[export] Instance exact_arithmetic : ExactArithmetic Qc := {
  add_assoc := Qcplus_assoc;
  add_comm := Qcplus_comm;
  add_zero_l := Qcplus_0_l;
  divide_add_distr := fun a b c => Qcmult_plus_distr_l a b (Qcinv c);
  divide_zero_l := fun c => Qcmult_0_l (Qcinv c)
}.

(** ** Earth Engine operations, per pixel *)

Module ee.

(** A pixel of an image: its bands, in order, and whether the pixel is
    unmasked.  A masked pixel carries no data for any consumer. *)
Record Image (V : Type) : Type := {
  bands : list (string * V);
  unmasked : bool
}.
Arguments bands {V} _.
Arguments unmasked {V} _.

(** [image.select(name)]: the value of the named band. *)
Definition select {V} (name : string) (image : Image V) : option V :=
  option_map snd (find (fun b => String.eqb (fst b) name) (bands image)).

(** [a.bitwiseAnd(b)] on integer pixel values. *)
Definition bitwiseAnd (a b : Z) : Z := Z.land a b.

(** [a.eq(b)]: 1 where the values are equal, 0 elsewhere. *)
Definition eq (a b : Z) : Z := if a =? b then 1 else 0.

(** [a.and(b)]: 1 where both values are non-zero, 0 elsewhere. *)
Definition and (a b : Z) : Z :=
  if negb (a =? 0) && negb (b =? 0) then 1 else 0.

(** [image.updateMask(mask)]: the pixel stays unmasked only where it was
    unmasked and the mask is non-zero. *)
Definition updateMask {V} (image : Image V) (mask : Z) : Image V :=
  {| bands := bands image;
     unmasked := unmasked image && negb (mask =? 0) |}.

(** [image.divide(c)]: every band divided by the constant; the mask is
    kept. *)
Definition divide {num} `{Number num} (image : Image Z) (c : Z) : Image num :=
  {| bands := map (fun b => (fst b, divide (of_Z (snd b)) (of_Z c)))
                  (bands image);
     unmasked := unmasked image |}.

(** What a consumer of the image reads at the pixel: the band values, or
    nothing where the pixel is masked. *)
Definition sample {V} (image : Image V) : option (list (string * V)) :=
  if unmasked image then Some (bands image) else None.

End ee.

(** ** Step 2: cloud masking ([maskS2clouds]) *)

Definition cloudBitMask : Z := Z.shiftl 1 10.
Definition cirrusBitMask : Z := Z.shiftl 1 11.

(** The [mask] of [maskS2clouds], as a function of the QA60 value. *)
Definition mask (qa : Z) : Z :=
  ee.and (ee.eq (ee.bitwiseAnd qa cloudBitMask) 0)
         (ee.eq (ee.bitwiseAnd qa cirrusBitMask) 0).

(** The mask read as a boolean: [true] is "retain". *)
Definition evaluateMask (qualityBitField : Z) : bool :=
  negb (mask qualityBitField =? 0).

(** [image.updateMask(mask).divide(10000)]. *)
Definition applyMaskAndNormalize {num} `{Number num}
    (image : ee.Image Z) (m : Z) : ee.Image num :=
  ee.divide (ee.updateMask image m) 10000.

(** [maskS2clouds(image)]; selecting a band the image lacks is an error. *)
Definition maskS2clouds {num} `{Number num}
    (image : ee.Image Z) : option (ee.Image num) :=
  match ee.select "QA60" image with
  | None => None
  | Some qa => Some (applyMaskAndNormalize image (mask qa))
  end.

(** The boolean mask of the specification as a mask value. *)
Definition mask_of_bool (m : bool) : Z := if m then 1 else 0.

(** ** Step 8: area of each class

    [areaImage] has two bands, the pixel area in square metres and the class
    of the pixel; [reduceRegion] visits the unmasked pixels of the region.
    A pixel is given here as the pair of its class and its area. *)

(** One entry of [area.get('groups')]: [{class: c, sum: s}]. *)
Record Group (num : Type) : Type := {
  class : Z;
  sum : num
}.
Arguments class {num} _.
Arguments sum {num} _.

(** [ee.Feature(null, {'class': classId, 'area_sq_km': areaSqKm})]. *)
Record Feature (num : Type) : Type := {
  classId : Z;
  area_sq_km : num
}.
Arguments classId {num} _.
Arguments area_sq_km {num} _.

Section AreaStatistics.
Context {num : Type} `{Number num}.

(** [ee.Reducer.sum().group(...)], one input at a time: the area joins the
    sum of its class, and a class met for the first time starts a new sum
    from zero.  The groups are kept in ascending order of class. *)
Fixpoint accumulate (c : Z) (a : num) (groups : list (Group num))
  : list (Group num) :=
  match groups with
  | [] => [{| class := c; sum := add zero a |}]
  | g :: rest =>
      if c <? class g then {| class := c; sum := add zero a |} :: groups
      else if c =? class g then {| class := c; sum := add (sum g) a |} :: rest
      else g :: accumulate c a rest
  end.

(** [areaImage.reduceRegion({reducer: ee.Reducer.sum().group(...), ...})
    .get('groups')] over the pixels of the region. *)
Definition reduceRegion (pixels : list (Z * num)) : list (Group num) :=
  fold_left (fun groups p => accumulate (fst p) (snd p) groups) pixels [].

(** [classAreas.map(function(item) {...})]. *)
Definition classAreaList (classAreas : list (Group num)) : list (Feature num) :=
  map (fun areaDict =>
         let classId' := class areaDict in
         let areaSqMeters := sum areaDict in
         let areaSqKm := divide areaSqMeters (of_Z 1000000) in
         {| classId := classId'; area_sq_km := areaSqKm |})
      classAreas.

(** The whole of step 8. *)
Definition aggregateAreas (pixels : list (Z * num)) : list (Feature num) :=
  classAreaList (reduceRegion pixels).

(** The printed feature collection read as a mapping from class to area. *)
Definition areaOf (c : Z) (features : list (Feature num)) : option num :=
  option_map area_sq_km (find (fun f => classId f =? c) features).

Definition sumOf (c : Z) (groups : list (Group num)) : option num :=
  option_map sum (find (fun g => class g =? c) groups).

(** The sum of all the areas of a feature collection. *)
Definition totalArea (features : list (Feature num)) : num :=
  fold_left add (map area_sq_km features) zero.

(** *** The specification's wording of the aggregation

    Group by class label, sum the pixel areas of each group in square
    metres, divide each group sum by 1,000,000. *)

Definition groupOf (c : Z) (pixels : list (Z * num)) : list num :=
  map snd (filter (fun p => fst p =? c) pixels).

Definition total (areas : list num) : num := fold_left add areas zero.

Definition aggregateAreas_spec (pixels : list (Z * num)) (c : Z) : option num :=
  match groupOf c pixels with
  | [] => None
  | areas => Some (divide (total areas) (of_Z 1000000))
  end.

(** Class labels in strictly ascending order, the order of the groups. *)
Definition ascending (classes : list Z) : Prop := StronglySorted Z.lt classes.

(** *** Combining the results of shards

    The per-label values of two mappings summed elementwise: a label of
    both gets the sum of its two values, a label of one keeps its value. *)
Fixpoint mergeFeature (f : Feature num) (features : list (Feature num))
  : list (Feature num) :=
  match features with
  | [] => [f]
  | g :: rest =>
      if classId f <? classId g then f :: features
      else if classId f =? classId g
           then {| classId := classId g;
                   area_sq_km := add (area_sq_km g) (area_sq_km f) |} :: rest
           else g :: mergeFeature f rest
  end.

Definition mergeAreas (xs ys : list (Feature num)) : list (Feature num) :=
  fold_left (fun acc f => mergeFeature f acc) ys xs.

Definition mergeShards (results : list (list (Feature num)))
  : list (Feature num) :=
  fold_left mergeAreas results [].

(** Two values of one label, where either may be missing. *)
Definition combine (x y : option num) : option num :=
  match x, y with
  | Some u, Some v => Some (add u v)
  | Some u, None => Some u
  | None, _ => y
  end.

End AreaStatistics.

(** A normalized reflectance is expected in the closed interval [0, 1]. *)
Definition inUnitInterval (x : float) : bool :=
  PrimFloat.leb 0 x && PrimFloat.leb x 1.

(** The raw value behind a normalized one: the nearest integer to
    [x * 10000]. *)
Definition floorZ (y : float) : Z :=
  match FloatOps.Prim2SF y with
  | SpecFloat.S754_finite false m e =>
      if e <? 0 then Z.shiftr (Z.pos m) (- e) else Z.shiftl (Z.pos m) e
  | _ => 0
  end.

Definition denormalize (x : float) : Z :=
  floorZ (PrimFloat.add (PrimFloat.mul x (of_Z 10000)) 0.5).

(** The integers [from], [from + 1], ..., [n] of them. *)
Fixpoint upto (n : nat) (from : Z) : list Z :=
  match n with
  | O => []
  | S k => from :: upto k (from + 1)
  end.

(** ** Step 4: training polygons

    The four drawn layers [water], [vegetation], [builtup] and [barren] are
    the inputs; a drawn feature has a geometry and properties. *)

Inductive PropertyValue : Type :=
| PNumber (z : Z)
| PString (s : string).

Record Polygon (G : Type) : Type := {
  index : string;   (* the id of the feature, its ['system:index'] *)
  geometry : G;
  properties : list (string * PropertyValue)
}.
Arguments index {G} _.
Arguments geometry {G} _.
Arguments properties {G} _.

Module eeFeature.

(** [f.get(key)] for a property of the feature; its id is [index]. *)
Definition get {G} (key : string) (f : Polygon G) : option PropertyValue :=
  option_map snd (find (fun p => String.eqb (fst p) key) (properties f)).

(** [f.set(key, value)]: the property is overridden, the others, the id
    and the geometry are kept. *)
Definition set {G} (key : string) (value : PropertyValue) (f : Polygon G)
  : Polygon G :=
  {| index := index f;
     geometry := geometry f;
     properties :=
       (key, value)
         :: filter (fun p => negb (String.eqb (fst p) key)) (properties f) |}.

End eeFeature.

Module eeFeatureCollection.

(** The element with its id behind a prefix. *)
Definition withPrefix {G} (prefix : string) (f : Polygon G) : Polygon G :=
  {| index := String.append prefix (index f);
     geometry := geometry f;
     properties := properties f |}.

(** [c1.merge(c2)]: the elements of [c1], then those of [c2]; the ids of
    the first get the prefix ["1_"], those of the second ["2_"]. *)
Definition merge {G} (c1 c2 : list (Polygon G)) : list (Polygon G) :=
  map (withPrefix "1_") c1 ++ map (withPrefix "2_") c2.

End eeFeatureCollection.

Definition trainingPolygons {G}
    (water vegetation builtup barren : list (Polygon G)) : list (Polygon G) :=
  eeFeatureCollection.merge
    (eeFeatureCollection.merge
       (eeFeatureCollection.merge
          (map (fun f => eeFeature.set "class" (PNumber 0) f) water)
          (map (fun f => eeFeature.set "class" (PNumber 1) f) vegetation))
       (map (fun f => eeFeature.set "class" (PNumber 2) f) builtup))
    (map (fun f => eeFeature.set "class" (PNumber 3) f) barren).

(** ** Step 5: training and testing sets

    An element of [withRandom]: the band values sampled at a pixel, the
    ['class'] of its polygon and the ['random'] column. *)

Record Sample : Type := {
  inputProperties : list (string * float);
  classProperty : Z;
  random : float
}.

Definition split : float := 0.7.

(** [withRandom.filter(ee.Filter.lt('random', split))]. *)
Definition trainingSet (withRandom : list Sample) : list Sample :=
  filter (fun s => PrimFloat.ltb (random s) split) withRandom.

(** [withRandom.filter(ee.Filter.gte('random', split))]. *)
Definition testingSet (withRandom : list Sample) : list Sample :=
  filter (fun s => PrimFloat.leb split (random s)) withRandom.

(** ** Bit-level facts about the two masks *)

Lemma land_bit (q n : Z) :
  0 <= n -> Z.land q (Z.shiftl 1 n) = if Z.testbit q n then 2 ^ n else 0.
Proof.
  intros Hn. rewrite Z.shiftl_1_l.
  apply Z.bits_inj'. intros m Hm.
  rewrite Z.land_spec, Z.pow2_bits_eqb by assumption.
  destruct (Z.eqb_spec n m) as [->|Hne].
  - rewrite andb_true_r. destruct (Z.testbit q m) eqn:E.
    + rewrite Z.pow2_bits_true; auto.
    + now rewrite Z.bits_0.
  - rewrite andb_false_r. destruct (Z.testbit q n).
    + rewrite Z.pow2_bits_false; auto.
    + now rewrite Z.bits_0.
Qed.

Lemma land_bit_zero (q n : Z) :
  0 <= n -> (Z.land q (Z.shiftl 1 n) = 0 <-> Z.testbit q n = false).
Proof.
  intros Hn. rewrite land_bit by assumption.
  destruct (Z.testbit q n); split; intros E; try reflexivity; try discriminate.
  exfalso. assert (0 < 2 ^ n) by (apply Z.pow_pos_nonneg; lia). lia.
Qed.

Lemma evaluateMask_bits (q : Z) :
  evaluateMask q = negb (Z.testbit q 10) && negb (Z.testbit q 11).
Proof.
  unfold evaluateMask, mask, ee.and, ee.eq, ee.bitwiseAnd,
    cloudBitMask, cirrusBitMask.
  rewrite !land_bit by lia.
  destruct (Z.testbit q 10), (Z.testbit q 11); reflexivity.
Qed.

(** C1: [evaluateMask q] is [true] exactly when both extractions
    [q AND (1 << 10)] and [q AND (1 << 11)] are zero, that is when bits 10
    and 11 of [q] are both clear; it is [false] as soon as one of them is
    set. *)
Theorem evaluateMask_iff_both_clear (q : Z) :
  (evaluateMask q = true <->
     Z.land q (Z.shiftl 1 10) = 0 /\ Z.land q (Z.shiftl 1 11) = 0)
  /\ (evaluateMask q = true <->
        Z.testbit q 10 = false /\ Z.testbit q 11 = false)
  /\ (evaluateMask q = false <->
        Z.testbit q 10 = true \/ Z.testbit q 11 = true).
Proof.
  rewrite !land_bit_zero by lia. rewrite evaluateMask_bits.
  destruct (Z.testbit q 10), (Z.testbit q 11); simpl; intuition congruence.
Qed.

(** C5: [evaluateMask] reads bits 10 and 11 only: two quality bit fields
    that agree on these two bits get the same answer, whatever their other
    bits are. *)
Theorem evaluateMask_other_bits_irrelevant (q1 q2 : Z) :
  Z.testbit q1 10 = Z.testbit q2 10 ->
  Z.testbit q1 11 = Z.testbit q2 11 ->
  evaluateMask q1 = evaluateMask q2.
Proof.
  intros H10 H11. rewrite !evaluateMask_bits. now rewrite H10, H11.
Qed.

Lemma evaluateMask_other_bits_irrelevant_witness :
  evaluateMask 0 = evaluateMask 1 /\ evaluateMask 1 = true.
Proof.
  split.
  - apply (evaluateMask_other_bits_irrelevant 0 1); reflexivity.
  - reflexivity.
Defined.

(** ** Masking and normalization *)

Lemma mask_of_bool_evaluateMask (qa : Z) :
  mask_of_bool (evaluateMask qa) = mask qa.
Proof.
  unfold evaluateMask, mask, ee.and.
  destruct (negb _ && negb _); reflexivity.
Qed.

Lemma maskS2clouds_applies_evaluateMask {num} `{Number num}
    (image : ee.Image Z) (qa : Z) :
  ee.select "QA60" image = Some qa ->
  maskS2clouds image
  = Some (applyMaskAndNormalize image (mask_of_bool (evaluateMask qa))).
Proof.
  intros E. unfold maskS2clouds. rewrite E.
  now rewrite mask_of_bool_evaluateMask.
Qed.

(** C3: for a pixel with reflectance vector [r], masking with [false] leaves
    nothing to read (the excluded pixel is no data, not a vector of zeros),
    masking with [true] leaves every band divided by 10000, and the excluded
    pixel differs from every retained one, whatever the retained values
    are. *)
Theorem applyMaskAndNormalize_excluded_or_normalized
    {num} `{Number num} (r : list (string * Z)) :
  ee.sample (applyMaskAndNormalize (num := num)
               {| ee.bands := r; ee.unmasked := true |} (mask_of_bool false))
  = None
  /\ ee.sample (applyMaskAndNormalize (num := num)
                  {| ee.bands := r; ee.unmasked := true |} (mask_of_bool true))
     = Some (map (fun b => (fst b, divide (of_Z (snd b)) (of_Z 10000))) r)
  /\ forall r' : list (string * Z),
       ee.sample (applyMaskAndNormalize (num := num)
                    {| ee.bands := r; ee.unmasked := true |}
                    (mask_of_bool false))
       <> ee.sample (applyMaskAndNormalize (num := num)
                       {| ee.bands := r'; ee.unmasked := true |}
                       (mask_of_bool true)).
Proof.
  repeat split; try reflexivity.
  intros r'. cbn. discriminate.
Qed.

(** ** Range of the normalized values *)

Lemma normalize_in_unit_interval (v : Z) :
  0 <= v <= 10000 ->
  inUnitInterval (divide (of_Z v) (of_Z 10000)) = true.
Proof.
  intros Hv.
  assert (All : forallb (fun n => inUnitInterval
                                    (divide (of_Z (Z.of_nat n)) (of_Z 10000)))
                        (seq 0 (Z.to_nat 10001)) = true)
    by (vm_compute; reflexivity).
  rewrite forallb_forall in All.
  specialize (All (Z.to_nat v)).
  rewrite Z2Nat.id in All by lia.
  apply All, in_seq. lia.
Qed.

(** C9, as the code has it: the division by 10000 does not clamp, so a
    normalized band value lies in [0, 1] when the raw value lies between 0
    and 10000. *)
Theorem normalized_bands_in_unit_interval
    (image : ee.Image Z) (m : Z) (name : string) (x : float) :
  (forall n v, In (n, v) (ee.bands image) -> 0 <= v <= 10000) ->
  In (name, x) (ee.bands (applyMaskAndNormalize image m)) ->
  inUnitInterval x = true.
Proof.
  intros Hraw Hin. cbn in Hin.
  apply in_map_iff in Hin. destruct Hin as [[n v] [E Hin]].
  injection E as _ <-. cbn [snd].
  apply normalize_in_unit_interval. eapply Hraw, Hin.
Qed.

Lemma normalized_bands_in_unit_interval_witness :
  inUnitInterval 0.5 = true.
Proof.
  apply (normalized_bands_in_unit_interval
           {| ee.bands := [("B4"%string, 5000); ("QA60"%string, 0)];
              ee.unmasked := true |}
           1 "B4"%string 0.5%float).
  - intros n v [E | [E | []]]; injection E as _ <-; lia.
  - left. reflexivity.
Defined.

(** The raw value 20000, a saturated reflectance of the 16-bit product, is
    normalized to 2, outside [0, 1]. *)
Lemma normalized_band_above_one :
  ee.bands (applyMaskAndNormalize (num := float)
              {| ee.bands := [("B4"%string, 20000)]; ee.unmasked := true |} 1)
  = [("B4"%string, 2%float)]
  /\ inUnitInterval 2 = false.
Proof. split; reflexivity. Qed.

(** ** The grouped sum keeps its groups in ascending order of class *)

Section AreaFacts.
Context {num : Type} `{Number num}.

Lemma accumulate_classes (c : Z) (a : num) (groups : list (Group num)) (k : Z) :
  In k (map class (accumulate c a groups)) <->
  k = c \/ In k (map class groups).
Proof.
  induction groups as [|g rest IH]; cbn.
  - intuition.
  - destruct (Z.ltb_spec c (class g)); cbn; [intuition|].
    destruct (Z.eqb_spec c (class g)) as [->|Hne]; cbn; [intuition|].
    rewrite IH. intuition.
Qed.

Lemma accumulate_ascending (c : Z) (a : num) (groups : list (Group num)) :
  ascending (map class groups) ->
  ascending (map class (accumulate c a groups)).
Proof.
  unfold ascending.
  induction groups as [|g rest IH]; cbn; intros S.
  - repeat constructor.
  - apply StronglySorted_inv in S. destruct S as [S All].
    destruct (Z.ltb_spec c (class g)) as [Hlt|Hge]; cbn.
    + constructor.
      * constructor; assumption.
      * constructor; [assumption|].
        eapply Forall_impl; [|exact All]. cbn. intros; lia.
    + destruct (Z.eqb_spec c (class g)) as [->|Hne]; cbn.
      * constructor; assumption.
      * constructor; [auto|].
        apply Forall_forall. intros k Hk.
        apply accumulate_classes in Hk. destruct Hk as [->|Hk]; [lia|].
        rewrite Forall_forall in All. auto.
Qed.

Lemma sumOf_absent (c : Z) (groups : list (Group num)) :
  ~ In c (map class groups) -> sumOf c groups = None.
Proof.
  unfold sumOf. induction groups as [|g rest IH]; cbn; intros Hn; [reflexivity|].
  destruct (Z.eqb_spec (class g) c) as [E|_]; [tauto|]. apply IH. tauto.
Qed.

Lemma ascending_head_absent (k : Z) (classes : list Z) (c : Z) :
  ascending (k :: classes) -> c <= k -> ~ In c classes.
Proof.
  intros S Hle Hin. apply StronglySorted_inv in S. destruct S as [_ All].
  rewrite Forall_forall in All. specialize (All _ Hin). lia.
Qed.

(** What a group sum becomes when one more pixel is accumulated. *)
Lemma sumOf_accumulate (c : Z) (a : num) (groups : list (Group num)) (k : Z) :
  ascending (map class groups) ->
  sumOf k (accumulate c a groups)
  = if k =? c
    then Some (add (match sumOf c groups with Some s => s | None => zero end) a)
    else sumOf k groups.
Proof.
  induction groups as [|g rest IH]; intros S.
  - cbn. unfold sumOf. cbn. rewrite (Z.eqb_sym c k).
    destruct (k =? c); reflexivity.
  - cbn [accumulate]. cbn [map] in S.
    destruct (Z.ltb_spec c (class g)) as [Hlt|Hge].
    + rewrite (sumOf_absent c (g :: rest)).
      * unfold sumOf. cbn. rewrite (Z.eqb_sym c k).
        destruct (k =? c); reflexivity.
      * cbn. intros [E|Hin]; [lia|].
        apply (ascending_head_absent _ _ c S); [lia|assumption].
    + destruct (Z.eqb_spec c (class g)) as [->|Hne].
      * unfold sumOf. cbn. rewrite Z.eqb_refl. cbn.
        rewrite (Z.eqb_sym (class g) k).
        destruct (k =? class g); reflexivity.
      * specialize (IH (proj1 (StronglySorted_inv S))).
        unfold sumOf in *. cbn.
        destruct (Z.eqb_spec (class g) k) as [E|Hk]; cbn.
        -- destruct (Z.eqb_spec k c) as [E'|_]; [congruence|reflexivity].
        -- rewrite IH.
           destruct (Z.eqb_spec (class g) c) as [E'|_]; [congruence|].
           reflexivity.
Qed.

Lemma reduceRegion_snoc (pixels : list (Z * num)) (p : Z * num) :
  reduceRegion (pixels ++ [p])
  = accumulate (fst p) (snd p) (reduceRegion pixels).
Proof. unfold reduceRegion. now rewrite fold_left_app. Qed.

Lemma reduceRegion_ascending (pixels : list (Z * num)) :
  ascending (map class (reduceRegion pixels)).
Proof.
  induction pixels as [|p pixels IH] using rev_ind.
  - constructor.
  - rewrite reduceRegion_snoc. now apply accumulate_ascending.
Qed.

Lemma reduceRegion_classes (pixels : list (Z * num)) (c : Z) :
  In c (map class (reduceRegion pixels)) <-> In c (map fst pixels).
Proof.
  induction pixels as [|p pixels IH] using rev_ind.
  - reflexivity.
  - rewrite reduceRegion_snoc, accumulate_classes, IH, map_app, in_app_iff.
    cbn. intuition.
Qed.

Lemma groupOf_snoc (c : Z) (pixels : list (Z * num)) (p : Z * num) :
  groupOf c (pixels ++ [p])
  = groupOf c pixels ++ (if fst p =? c then [snd p] else []).
Proof.
  unfold groupOf. rewrite filter_app, map_app. cbn.
  destruct (fst p =? c); reflexivity.
Qed.

Lemma total_snoc (areas : list num) (a : num) :
  total (areas ++ [a]) = add (total areas) a.
Proof. unfold total. now rewrite fold_left_app. Qed.

(** The sum kept for a class is the sum of the areas of its pixels, taken
    in the order of the input. *)
Lemma sumOf_reduceRegion (pixels : list (Z * num)) (c : Z) :
  sumOf c (reduceRegion pixels)
  = match groupOf c pixels with
    | [] => None
    | areas => Some (total areas)
    end.
Proof.
  induction pixels as [|p pixels IH] using rev_ind.
  - reflexivity.
  - rewrite reduceRegion_snoc, groupOf_snoc.
    rewrite sumOf_accumulate by apply reduceRegion_ascending.
    rewrite (Z.eqb_sym c (fst p)).
    destruct (Z.eqb_spec (fst p) c) as [E|Hne].
    + rewrite E, IH.
      destruct (groupOf c pixels) as [|a0 areas] eqn:G.
      * reflexivity.
      * cbn [app]. rewrite app_comm_cons, total_snoc. reflexivity.
    + rewrite app_nil_r. exact IH.
Qed.

Lemma areaOf_classAreaList (c : Z) (groups : list (Group num)) :
  areaOf c (classAreaList groups)
  = option_map (fun s => divide s (of_Z 1000000)) (sumOf c groups).
Proof.
  unfold areaOf, sumOf, classAreaList.
  induction groups as [|g rest IH]; cbn; [reflexivity|].
  destruct (class g =? c); cbn; [reflexivity|exact IH].
Qed.

Lemma classAreaList_classes (groups : list (Group num)) :
  map classId (classAreaList groups) = map class groups.
Proof. unfold classAreaList. rewrite map_map. reflexivity. Qed.

Lemma aggregateAreas_refines_spec (pixels : list (Z * num)) (c : Z) :
  areaOf c (aggregateAreas pixels) = aggregateAreas_spec pixels c.
Proof.
  unfold aggregateAreas, aggregateAreas_spec.
  rewrite areaOf_classAreaList, sumOf_reduceRegion.
  destruct (groupOf c pixels); reflexivity.
Qed.

End AreaFacts.

(** ** The statistics as a mapping *)

Section MappingFacts.
Context {num : Type} `{Number num}.

Lemma ascending_NoDup (classes : list Z) : ascending classes -> NoDup classes.
Proof.
  induction 1 as [|k classes S IH All]; constructor; [|assumption].
  intros Hin. rewrite Forall_forall in All. specialize (All _ Hin). lia.
Qed.

Lemma aggregateAreas_ascending (pixels : list (Z * num)) :
  ascending (map classId (aggregateAreas pixels)).
Proof.
  unfold aggregateAreas. rewrite classAreaList_classes.
  apply reduceRegion_ascending.
Qed.

Lemma aggregateAreas_classes (pixels : list (Z * num)) (c : Z) :
  In c (map classId (aggregateAreas pixels)) <-> In c (map fst pixels).
Proof.
  unfold aggregateAreas. rewrite classAreaList_classes.
  apply reduceRegion_classes.
Qed.

Lemma groupOf_nil_iff (c : Z) (pixels : list (Z * num)) :
  groupOf c pixels = [] <-> ~ In c (map fst pixels).
Proof.
  unfold groupOf. induction pixels as [|p pixels IH]; cbn.
  - tauto.
  - destruct (Z.eqb_spec (fst p) c) as [E|Hne]; cbn.
    + split; [discriminate|tauto].
    + rewrite IH. tauto.
Qed.

Lemma in_map_fst (c : Z) (pixels : list (Z * num)) :
  In c (map fst pixels) <-> exists a, In (c, a) pixels.
Proof.
  rewrite in_map_iff. split.
  - intros [[c' a] [E Hin]]. cbn in E. subst c'. eauto.
  - intros [a Hin]. exists (c, a). auto.
Qed.

End MappingFacts.

(** C2: the feature collection the code builds, read as a mapping, is the
    one obtained by grouping the pixels by class label, summing the areas of
    each group and dividing each sum by 1,000,000; and on the three pixels
    of the example it is {1: 1.0, 2: 2.0}. *)
Theorem aggregateAreas_groups_sums_and_converts :
  (forall (num : Type) (N : Number num) (pixels : list (Z * num)) (c : Z),
      areaOf c (aggregateAreas pixels) = aggregateAreas_spec pixels c)
  /\ aggregateAreas (num := float)
       [(1, 500000%float); (1, 500000%float); (2, 2000000%float)]
     = [{| classId := 1; area_sq_km := 1%float |};
        {| classId := 2; area_sq_km := 2%float |}].
Proof.
  split.
  - intros. apply aggregateAreas_refines_spec.
  - reflexivity.
Qed.

(** C7: the output has no two entries for one label, its labels are exactly
    the labels of the input pixels, and a label without any pixel is absent:
    it has no entry and no value, not even zero. *)
Theorem aggregateAreas_one_entry_per_contributing_label
    {num : Type} `{Number num} (pixels : list (Z * num)) :
  NoDup (map classId (aggregateAreas pixels))
  /\ (forall c : Z,
        In c (map classId (aggregateAreas pixels)) <->
        exists a : num, In (c, a) pixels)
  /\ (forall c : Z,
        (forall a : num, ~ In (c, a) pixels) ->
        ~ In c (map classId (aggregateAreas pixels))
        /\ areaOf c (aggregateAreas pixels) = None).
Proof.
  split; [|split].
  - apply ascending_NoDup, aggregateAreas_ascending.
  - intros c. rewrite aggregateAreas_classes. apply in_map_fst.
  - intros c Habs.
    assert (Hn : ~ In c (map fst pixels)).
    { rewrite in_map_fst. intros [a Hin]. exact (Habs a Hin). }
    split.
    + now rewrite aggregateAreas_classes.
    + rewrite aggregateAreas_refines_spec. unfold aggregateAreas_spec.
      apply groupOf_nil_iff in Hn. now rewrite Hn.
Qed.

Example aggregateAreas_one_sq_km :
  aggregateAreas (num := float) [(0, 1000000%float)]
  = [{| classId := 0; area_sq_km := 1%float |}].
Proof. reflexivity. Qed.

(** C8: on the empty sequence the result is the empty collection, the
    mapping with no label. *)
Theorem aggregateAreas_empty {num : Type} `{Number num} :
  aggregateAreas (num := num) [] = []
  /\ forall c : Z, areaOf c (aggregateAreas (num := num) []) = None.
Proof. split; reflexivity. Qed.

(** C4, as the code has it: nothing is validated.  Every pixel of the
    input, whatever its label and the sign of its area, is accumulated: its
    label has an entry, whose value is the sum of the group divided by
    1,000,000. *)
Theorem aggregateAreas_accumulates_every_pixel
    {num : Type} `{Number num} (pixels : list (Z * num)) (c : Z) (a : num) :
  In (c, a) pixels ->
  areaOf c (aggregateAreas pixels)
  = Some (divide (total (groupOf c pixels)) (of_Z 1000000)).
Proof.
  intros Hin. rewrite aggregateAreas_refines_spec. unfold aggregateAreas_spec.
  destruct (groupOf c pixels) eqn:G; [|reflexivity].
  exfalso. apply groupOf_nil_iff in G. apply G, in_map_fst. eauto.
Qed.

Lemma aggregateAreas_accumulates_every_pixel_witness :
  areaOf 7 (aggregateAreas (num := float)
              [(7, (-1000000)%float); (7, (-1000000)%float)])
  = Some (-2)%float.
Proof.
  exact (aggregateAreas_accumulates_every_pixel
           (num := float)
           [(7, (-1000000)%float); (7, (-1000000)%float)]
           7 (-1000000)%float (or_introl eq_refl)).
Defined.

(** A label outside {0, 1, 2, 3} and a negative area go through: the batch
    is not failed, both pixels are in the output. *)
Lemma aggregateAreas_accepts_invalid_pixels :
  aggregateAreas (num := float) [(7, 1000000%float); (0, (-1000000)%float)]
  = [{| classId := 0; area_sq_km := (-1)%float |};
     {| classId := 7; area_sq_km := 1%float |}].
Proof. reflexivity. Qed.

(** ** Merging shard results *)

Section MergeFacts.
Context {num : Type} `{Number num}.

Lemma areaOf_absent (c : Z) (features : list (Feature num)) :
  ~ In c (map classId features) -> areaOf c features = None.
Proof.
  unfold areaOf.
  induction features as [|f rest IH]; cbn; intros Hn; [reflexivity|].
  destruct (Z.eqb_spec (classId f) c) as [E|_]; [tauto|]. apply IH. tauto.
Qed.

Lemma areaOf_cons (c : Z) (f : Feature num) (features : list (Feature num)) :
  areaOf c (f :: features)
  = if classId f =? c then Some (area_sq_km f) else areaOf c features.
Proof. unfold areaOf. cbn. destruct (classId f =? c); reflexivity. Qed.

Lemma mergeFeature_classes (f : Feature num) (features : list (Feature num))
    (k : Z) :
  In k (map classId (mergeFeature f features)) <->
  k = classId f \/ In k (map classId features).
Proof.
  induction features as [|g rest IH]; cbn.
  - intuition.
  - destruct (Z.ltb_spec (classId f) (classId g)); cbn; [intuition|].
    destruct (Z.eqb_spec (classId f) (classId g)) as [E|Hne]; cbn.
    + rewrite E. intuition.
    + rewrite IH. intuition.
Qed.

Lemma mergeFeature_ascending (f : Feature num) (features : list (Feature num)) :
  ascending (map classId features) ->
  ascending (map classId (mergeFeature f features)).
Proof.
  unfold ascending.
  induction features as [|g rest IH]; cbn; intros S.
  - repeat constructor.
  - apply StronglySorted_inv in S. destruct S as [S All].
    destruct (Z.ltb_spec (classId f) (classId g)) as [Hlt|Hge]; cbn.
    + constructor.
      * constructor; assumption.
      * constructor; [assumption|].
        eapply Forall_impl; [|exact All]. cbn. intros; lia.
    + destruct (Z.eqb_spec (classId f) (classId g)) as [E|Hne]; cbn.
      * constructor; assumption.
      * constructor; [auto|].
        apply Forall_forall. intros k Hk.
        apply mergeFeature_classes in Hk. destruct Hk as [->|Hk]; [lia|].
        rewrite Forall_forall in All. auto.
Qed.

Lemma areaOf_mergeFeature (f : Feature num) (features : list (Feature num))
    (k : Z) :
  ascending (map classId features) ->
  areaOf k (mergeFeature f features)
  = if k =? classId f
    then combine (areaOf k features) (Some (area_sq_km f))
    else areaOf k features.
Proof.
  induction features as [|g rest IH]; intros S.
  - cbn [mergeFeature]. rewrite areaOf_cons. rewrite (Z.eqb_sym (classId f) k).
    destruct (k =? classId f); reflexivity.
  - cbn [mergeFeature]. cbn [map] in S.
    destruct (Z.ltb_spec (classId f) (classId g)) as [Hlt|Hge].
    + rewrite areaOf_cons, (Z.eqb_sym (classId f) k).
      destruct (Z.eqb_spec k (classId f)) as [E|Hne]; [|reflexivity].
      rewrite E.
      rewrite (areaOf_absent (classId f) (g :: rest)); [reflexivity|].
      cbn. intros [E'|Hin]; [lia|].
      apply (ascending_head_absent _ _ (classId f) S); [lia|assumption].
    + destruct (Z.eqb_spec (classId f) (classId g)) as [E|Hne].
      * rewrite !areaOf_cons. cbn [classId area_sq_km]. rewrite <- E.
        rewrite (Z.eqb_sym (classId f) k).
        destruct (k =? classId f); reflexivity.
      * specialize (IH (proj1 (StronglySorted_inv S))).
        rewrite !areaOf_cons, IH.
        destruct (Z.eqb_spec (classId g) k) as [E|Hk]; [|reflexivity].
        destruct (Z.eqb_spec k (classId f)) as [E'|_]; [congruence|reflexivity].
Qed.

Lemma mergeAreas_cons (xs : list (Feature num)) (y : Feature num)
    (ys : list (Feature num)) :
  mergeAreas xs (y :: ys) = mergeAreas (mergeFeature y xs) ys.
Proof. reflexivity. Qed.

Lemma mergeAreas_ascending (xs ys : list (Feature num)) :
  ascending (map classId xs) -> ascending (map classId (mergeAreas xs ys)).
Proof.
  revert xs. induction ys as [|y ys IH]; intros xs S; [exact S|].
  rewrite mergeAreas_cons. apply IH, mergeFeature_ascending, S.
Qed.

(** The merged mapping has, at every label, the combination of the two
    values. *)
Lemma areaOf_mergeAreas (xs ys : list (Feature num)) (k : Z) :
  ascending (map classId xs) -> ascending (map classId ys) ->
  areaOf k (mergeAreas xs ys) = combine (areaOf k xs) (areaOf k ys).
Proof.
  revert xs. induction ys as [|y ys IH]; intros xs Sx Sy.
  - cbn. destruct (areaOf k xs); reflexivity.
  - rewrite mergeAreas_cons.
    rewrite IH by (try apply mergeFeature_ascending;
                   try exact (proj1 (StronglySorted_inv Sy)); assumption).
    rewrite areaOf_mergeFeature by assumption.
    rewrite areaOf_cons, (Z.eqb_sym (classId y) k).
    destruct (Z.eqb_spec k (classId y)) as [E|Hne]; [|reflexivity].
    rewrite E.
    rewrite (areaOf_absent (classId y) ys).
    + destruct (areaOf (classId y) xs); reflexivity.
    + apply (ascending_head_absent (classId y)); [exact Sy|lia].
Qed.

Lemma mergeShards_ascending_from (results : list (list (Feature num)))
    (acc : list (Feature num)) :
  ascending (map classId acc) ->
  ascending (map classId (fold_left mergeAreas results acc)).
Proof.
  revert acc. induction results as [|r results IH]; intros acc S; [exact S|].
  cbn. apply IH, mergeAreas_ascending, S.
Qed.

Lemma areaOf_mergeShards_from (results : list (list (Feature num)))
    (acc : list (Feature num)) (k : Z) :
  ascending (map classId acc) ->
  Forall (fun r => ascending (map classId r)) results ->
  areaOf k (fold_left mergeAreas results acc)
  = fold_left combine (map (areaOf k) results) (areaOf k acc).
Proof.
  revert acc. induction results as [|r results IH]; intros acc S All.
  - reflexivity.
  - cbn. apply Forall_cons_iff in All. destruct All as [Sr All].
    rewrite IH by (try apply mergeAreas_ascending; assumption).
    now rewrite areaOf_mergeAreas.
Qed.

(** Two collections in ascending order of label that are the same mapping
    are the same list. *)
Lemma ascending_features_ext (xs ys : list (Feature num)) :
  ascending (map classId xs) -> ascending (map classId ys) ->
  (forall k, areaOf k xs = areaOf k ys) -> xs = ys.
Proof.
  revert ys. induction xs as [|x xs IH]; intros ys Sx Sy E.
  - destruct ys as [|y ys]; [reflexivity|].
    specialize (E (classId y)). rewrite areaOf_cons, Z.eqb_refl in E.
    discriminate.
  - destruct ys as [|y ys].
    + specialize (E (classId x)). rewrite areaOf_cons, Z.eqb_refl in E.
      discriminate.
    + cbn [map] in Sx, Sy.
      assert (Ax : ~ In (classId x) (map classId xs))
        by (apply (ascending_head_absent (classId x)); [exact Sx|lia]).
      assert (Ay : ~ In (classId y) (map classId ys))
        by (apply (ascending_head_absent (classId y)); [exact Sy|lia]).
      assert (K : classId x = classId y).
      { destruct (Z.lt_trichotomy (classId x) (classId y)) as [L|[L|L]];
          [|exact L|].
        - specialize (E (classId x)).
          rewrite !areaOf_cons, Z.eqb_refl in E.
          destruct (Z.eqb_spec (classId y) (classId x)); [lia|].
          rewrite areaOf_absent in E; [discriminate|].
          apply (ascending_head_absent (classId y)); [exact Sy|lia].
        - specialize (E (classId y)).
          rewrite !areaOf_cons, Z.eqb_refl in E.
          destruct (Z.eqb_spec (classId x) (classId y)); [lia|].
          rewrite areaOf_absent in E; [discriminate|].
          apply (ascending_head_absent (classId x)); [exact Sx|lia]. }
      assert (V : area_sq_km x = area_sq_km y).
      { specialize (E (classId x)).
        rewrite !areaOf_cons, <- K, Z.eqb_refl in E. congruence. }
      f_equal.
      * destruct x, y; cbn in *; congruence.
      * apply IH;
          [exact (proj1 (StronglySorted_inv Sx))
          |exact (proj1 (StronglySorted_inv Sy))|].
        intros k. specialize (E k). rewrite !areaOf_cons, <- K in E.
        destruct (Z.eqb_spec (classId x) k) as [Ek|_]; [|exact E].
        rewrite <- Ek.
        rewrite !areaOf_absent; [reflexivity| |assumption].
        now rewrite <- K in Ay.
Qed.

End MergeFacts.

(** ** Sums in exact arithmetic *)

Section ExactFacts.
Context {num : Type} `{ExactArithmetic num}.

Lemma add_zero_r (a : num) : add a zero = a.
Proof. rewrite add_comm. apply add_zero_l. Qed.

Lemma total_cons (a : num) (areas : list num) :
  total (a :: areas) = add a (total areas).
Proof.
  induction areas as [|b areas IH] using rev_ind.
  - unfold total. cbn. now rewrite add_zero_l, add_zero_r.
  - rewrite app_comm_cons, !total_snoc, IH. symmetry. apply add_assoc.
Qed.

Lemma total_app (xs ys : list num) :
  total (xs ++ ys) = add (total xs) (total ys).
Proof.
  induction xs as [|x xs IH]; cbn [app].
  - unfold total at 2. cbn. now rewrite add_zero_l.
  - rewrite !total_cons, IH. apply add_assoc.
Qed.

Lemma total_Permutation (xs ys : list num) :
  Permutation xs ys -> total xs = total ys.
Proof.
  induction 1 as [|x xs ys P IH|x y xs|xs ys zs P1 IH1 P2 IH2].
  - reflexivity.
  - rewrite !total_cons. now rewrite IH.
  - rewrite !total_cons, !add_assoc. now rewrite (add_comm y x).
  - congruence.
Qed.

Lemma groupOf_Permutation (c : Z) (pixels pixels' : list (Z * num)) :
  Permutation pixels pixels' ->
  Permutation (groupOf c pixels) (groupOf c pixels').
Proof.
  unfold groupOf.
  induction 1 as [|p xs ys P IH|p q xs|xs ys zs P1 IH1 P2 IH2]; cbn.
  - constructor.
  - destruct (fst p =? c); cbn; [now constructor|assumption].
  - destruct (fst p =? c), (fst q =? c); cbn;
      try apply Permutation_refl. apply perm_swap.
  - eapply Permutation_trans; eassumption.
Qed.

Lemma aggregateAreas_spec_Permutation (pixels pixels' : list (Z * num)) (c : Z) :
  Permutation pixels pixels' ->
  aggregateAreas_spec pixels c = aggregateAreas_spec pixels' c.
Proof.
  intros P. apply (groupOf_Permutation c) in P.
  unfold aggregateAreas_spec.
  pose proof (total_Permutation _ _ P) as T.
  destruct (groupOf c pixels) as [|a areas], (groupOf c pixels') as [|a' areas'].
  - reflexivity.
  - apply Permutation_nil in P. discriminate.
  - apply Permutation_sym, Permutation_nil in P. discriminate.
  - now rewrite T.
Qed.

Lemma aggregateAreas_spec_app (xs ys : list (Z * num)) (c : Z) :
  aggregateAreas_spec (xs ++ ys) c
  = combine (aggregateAreas_spec xs c) (aggregateAreas_spec ys c).
Proof.
  unfold aggregateAreas_spec, groupOf. rewrite filter_app, map_app.
  fold (groupOf c xs). fold (groupOf c ys).
  destruct (groupOf c xs) as [|a areas].
  - reflexivity.
  - destruct (groupOf c ys) as [|b areas'].
    + now rewrite app_nil_r.
    + cbn [combine app]. rewrite <- divide_add_distr.
      now rewrite app_comm_cons, total_app.
Qed.

Lemma aggregateAreas_spec_concat (shards : list (list (Z * num)))
    (done : list (Z * num)) (c : Z) :
  fold_left combine (map (fun s => aggregateAreas_spec s c) shards)
            (aggregateAreas_spec done c)
  = aggregateAreas_spec (done ++ List.concat shards) c.
Proof.
  revert done. induction shards as [|s shards IH]; intros done; cbn.
  - now rewrite app_nil_r.
  - rewrite <- aggregateAreas_spec_app, IH. now rewrite app_assoc.
Qed.

Lemma total_sums_accumulate (c : Z) (a : num) (groups : list (Group num)) :
  total (map sum (accumulate c a groups)) = add (total (map sum groups)) a.
Proof.
  induction groups as [|g rest IH]; cbn [accumulate].
  - unfold total. cbn. now rewrite !add_zero_l.
  - destruct (c <? class g); [|destruct (c =? class g)]; cbn [map sum].
    + rewrite (total_cons (add zero a)), add_zero_l. apply add_comm.
    + rewrite !total_cons, <- !add_assoc.
      now rewrite (add_comm a).
    + rewrite !total_cons, IH. apply add_assoc.
Qed.

Lemma total_sums_reduceRegion (pixels : list (Z * num)) :
  total (map sum (reduceRegion pixels)) = total (map snd pixels).
Proof.
  induction pixels as [|p pixels IH] using rev_ind.
  - reflexivity.
  - rewrite reduceRegion_snoc, total_sums_accumulate, IH, map_app.
    cbn [map]. now rewrite total_snoc.
Qed.

Lemma totalArea_classAreaList (groups : list (Group num)) :
  totalArea (classAreaList groups)
  = divide (total (map sum groups)) (of_Z 1000000).
Proof.
  unfold totalArea. fold (total (map area_sq_km (classAreaList groups))).
  induction groups as [|g rest IH]; cbn [classAreaList map area_sq_km].
  - unfold total. cbn. symmetry. apply divide_zero_l.
  - fold (classAreaList rest).
    rewrite !total_cons, IH. symmetry. apply divide_add_distr.
Qed.

End ExactFacts.

(** ** Shards and groups on any numbers *)

Section ShardFacts.
Context {num : Type} `{Number num}.

Lemma mergeAreas_classes (xs ys : list (Feature num)) (k : Z) :
  In k (map classId (mergeAreas xs ys)) <->
  In k (map classId xs) \/ In k (map classId ys).
Proof.
  revert xs. induction ys as [|y ys IH]; intros xs.
  - cbn. tauto.
  - rewrite mergeAreas_cons, IH, mergeFeature_classes. cbn. intuition.
Qed.

Lemma mergeShards_classes_from (results : list (list (Feature num)))
    (acc : list (Feature num)) (k : Z) :
  In k (map classId (fold_left mergeAreas results acc)) <->
  In k (map classId acc) \/ exists r, In r results /\ In k (map classId r).
Proof.
  revert acc. induction results as [|r results IH]; intros acc; cbn.
  - split; [auto|]. intros [Hk|[r [[] _]]]. exact Hk.
  - rewrite IH, mergeAreas_classes. split.
    + intros [[Hk|Hk]|[r' [Hr Hk]]]; eauto.
    + intros [Hk|[r' [[E|Hr] Hk]]]; [auto|subst r'; auto|eauto].
Qed.

(** The labels of the merged shard results are the labels of the pixels of
    the shards. *)
Lemma mergeShards_aggregateAreas_classes (shards : list (list (Z * num)))
    (k : Z) :
  In k (map classId (mergeShards (map aggregateAreas shards))) <->
  In k (map fst (List.concat shards)).
Proof.
  unfold mergeShards. rewrite mergeShards_classes_from. split.
  - intros [[]|[r [Hr Hk]]].
    apply in_map_iff in Hr. destruct Hr as [s [Er Hs]]. subst r.
    apply aggregateAreas_classes, in_map_iff in Hk.
    destruct Hk as [p [E Hp]]. apply in_map_iff. exists p.
    split; [exact E|]. apply in_concat. eauto.
  - intros Hk. apply in_map_iff in Hk. destruct Hk as [p [E Hp]].
    apply in_concat in Hp. destruct Hp as [s [Hs Hp]].
    right. exists (aggregateAreas s). split; [now apply in_map|].
    apply aggregateAreas_classes, in_map_iff. eauto.
Qed.

(** The merged value of a label, from the values of the shards. *)
Lemma areaOf_mergeShards_aggregateAreas (shards : list (list (Z * num)))
    (k : Z) :
  areaOf k (mergeShards (map aggregateAreas shards))
  = fold_left combine (map (fun s => aggregateAreas_spec s k) shards) None.
Proof.
  unfold mergeShards.
  rewrite areaOf_mergeShards_from.
  - rewrite map_map. f_equal. apply map_ext.
    intros s. apply aggregateAreas_refines_spec.
  - constructor.
  - apply Forall_forall. intros r Hr. apply in_map_iff in Hr.
    destruct Hr as [s [<- _]]. apply aggregateAreas_ascending.
Qed.

Lemma combine_None_r (x : option num) : combine x None = x.
Proof. destruct x; reflexivity. Qed.

Lemma fold_combine_absent (shards : list (list (Z * num))) (k : Z)
    (x : option num) :
  (forall s, In s shards -> groupOf k s = []) ->
  fold_left combine (map (fun s => aggregateAreas_spec s k) shards) x = x.
Proof.
  revert x. induction shards as [|s shards IH]; intros x Abs; [reflexivity|].
  cbn [map fold_left]. unfold aggregateAreas_spec at 2.
  rewrite (Abs s (or_introl Logic.eq_refl)), combine_None_r.
  apply IH. intros s' Hs'. apply Abs. now right.
Qed.

(** A label whose pixels all lie in one shard, in the order of the input,
    keeps its value: no addition is made for it when the shards are
    merged. *)
Lemma areaOf_mergeShards_unsplit (pixels : list (Z * num))
    (before after : list (list (Z * num))) (s : list (Z * num)) (k : Z) :
  (forall s', In s' (before ++ after) -> groupOf k s' = []) ->
  groupOf k s = groupOf k pixels ->
  areaOf k (mergeShards (map aggregateAreas (before ++ s :: after)))
  = areaOf k (aggregateAreas pixels).
Proof.
  intros Abs Same.
  rewrite areaOf_mergeShards_aggregateAreas, aggregateAreas_refines_spec.
  rewrite map_app, fold_left_app. cbn [map fold_left].
  rewrite (fold_combine_absent before)
    by (intros s' Hs'; apply Abs, in_or_app; now left).
  rewrite (fold_combine_absent after)
    by (intros s' Hs'; apply Abs, in_or_app; now right).
  cbn [combine]. unfold aggregateAreas_spec. now rewrite Same.
Qed.

Lemma areaOf_In (features : list (Feature num)) (f : Feature num) :
  NoDup (map classId features) -> In f features ->
  areaOf (classId f) features = Some (area_sq_km f).
Proof.
  induction features as [|g rest IH]; intros ND Hin; [destruct Hin|].
  rewrite areaOf_cons. cbn [map] in ND. apply NoDup_cons_iff in ND.
  destruct ND as [Hg ND]. destruct Hin as [->|Hin].
  - now rewrite Z.eqb_refl.
  - destruct (Z.eqb_spec (classId g) (classId f)) as [E|_]; [|now apply IH].
    exfalso. apply Hg. rewrite E. now apply in_map.
Qed.

(** Every value of the output is the sum of its class divided by
    1,000,000. *)
Lemma aggregateAreas_values (pixels : list (Z * num)) (f : Feature num) :
  In f (aggregateAreas pixels) ->
  area_sq_km f
  = divide (total (groupOf (classId f) pixels)) (of_Z 1000000).
Proof.
  intros Hin.
  pose proof (areaOf_In _ f
                (ascending_NoDup _ (aggregateAreas_ascending pixels)) Hin) as E.
  rewrite aggregateAreas_refines_spec in E. unfold aggregateAreas_spec in E.
  destruct (groupOf (classId f) pixels); [discriminate|congruence].
Qed.

Lemma groupOf_cons (k c : Z) (a : num) (pixels : list (Z * num)) :
  groupOf k ((c, a) :: pixels)
  = if c =? k then a :: groupOf k pixels else groupOf k pixels.
Proof. unfold groupOf. cbn. destruct (c =? k); reflexivity. Qed.

Lemma groups_cons_other (keys : list Z) (c : Z) (a : num)
    (pixels : list (Z * num)) :
  ~ In c keys ->
  flat_map (fun k => groupOf k ((c, a) :: pixels)) keys
  = flat_map (fun k => groupOf k pixels) keys.
Proof.
  induction keys as [|k keys IH]; intros Hn; [reflexivity|].
  cbn [flat_map]. rewrite groupOf_cons.
  destruct (Z.eqb_spec c k) as [E|_].
  - exfalso. apply Hn. now left.
  - f_equal. apply IH. intros Hin. apply Hn. now right.
Qed.

Lemma groups_cons (keys : list Z) (c : Z) (a : num) (pixels : list (Z * num)) :
  NoDup keys -> In c keys ->
  Permutation (flat_map (fun k => groupOf k ((c, a) :: pixels)) keys)
              (a :: flat_map (fun k => groupOf k pixels) keys).
Proof.
  induction keys as [|k keys IH]; intros ND Hin; [destruct Hin|].
  apply NoDup_cons_iff in ND. destruct ND as [Hk ND].
  cbn [flat_map]. rewrite groupOf_cons.
  destruct (Z.eqb_spec c k) as [E|Hne].
  - subst k. rewrite groups_cons_other by assumption.
    apply Permutation_refl.
  - destruct Hin as [E|Hin]; [congruence|].
    eapply Permutation_trans;
      [apply Permutation_app_head, IH; assumption|].
    apply Permutation_sym, Permutation_middle.
Qed.

(** The groups of the labels share out the pixel areas: every area is in
    the group of its label and in no other. *)
Lemma groups_partition (keys : list Z) (pixels : list (Z * num)) :
  NoDup keys -> (forall c, In c (map fst pixels) -> In c keys) ->
  Permutation (flat_map (fun k => groupOf k pixels) keys) (map snd pixels).
Proof.
  intros ND. induction pixels as [|[c a] pixels IH]; intros Cover.
  - clear ND Cover. cbn [map].
    induction keys as [|k keys IHk]; [constructor|exact IHk].
  - eapply Permutation_trans.
    + apply groups_cons; [exact ND|]. apply Cover. now left.
    + cbn [map snd]. apply perm_skip, IH.
      intros c' Hc'. apply Cover. now right.
Qed.

Lemma groups_of_features (features : list (Feature num))
    (pixels : list (Z * num)) :
  flat_map (fun f => groupOf (classId f) pixels) features
  = flat_map (fun k => groupOf k pixels) (map classId features).
Proof.
  induction features as [|f rest IH]; cbn; [reflexivity|]. now rewrite IH.
Qed.

End ShardFacts.

(** C6, as the code has it: for every partition of the input into shards,
    merging the shard results by per-label addition gives, on any numbers,
    binary64 included, one entry per label and exactly the labels of the
    whole aggregate, and the same value for every label whose pixels all
    lie in one shard in their input order; where the arithmetic of the
    areas is exact it gives the same value for every label. *)
Theorem sharding_labels_and_values
    {num : Type} `{Number num}
    (pixels : list (Z * num)) (shards : list (list (Z * num))) :
  Permutation (List.concat shards) pixels ->
  (NoDup (map classId (mergeShards (map aggregateAreas shards)))
   /\ forall k : Z,
        In k (map classId (mergeShards (map aggregateAreas shards))) <->
        In k (map classId (aggregateAreas pixels)))
  /\ (forall (k : Z) (before after : list (list (Z * num)))
             (s : list (Z * num)),
         shards = before ++ s :: after ->
         (forall s', In s' (before ++ after) -> groupOf k s' = []) ->
         groupOf k s = groupOf k pixels ->
         areaOf k (mergeShards (map aggregateAreas shards))
         = areaOf k (aggregateAreas pixels))
  /\ (ExactArithmetic num ->
      forall k : Z,
        areaOf k (mergeShards (map aggregateAreas shards))
        = areaOf k (aggregateAreas pixels)).
Proof.
  intros P. split; [split|split].
  - apply ascending_NoDup. unfold mergeShards.
    apply mergeShards_ascending_from. constructor.
  - intros k.
    rewrite mergeShards_aggregateAreas_classes, aggregateAreas_classes.
    split; apply Permutation_in, Permutation_map;
      [exact P|apply Permutation_sym, P].
  - intros k before after s -> Abs Same.
    now apply areaOf_mergeShards_unsplit.
  - intros Exact k.
    rewrite areaOf_mergeShards_aggregateAreas.
    change (@None num) with (aggregateAreas_spec (@nil (Z * num)) k).
    rewrite aggregateAreas_spec_concat. cbn [app].
    rewrite aggregateAreas_refines_spec.
    now apply aggregateAreas_spec_Permutation.
Qed.

Lemma sharding_labels_and_values_witness :
  areaOf 1 (mergeShards
              (map (aggregateAreas (num := float))
                   [[(1, 100%float); (1, 200%float)]; [(2, 300%float)]]))
  = areaOf 1 (aggregateAreas (num := float)
                [(1, 100%float); (2, 300%float); (1, 200%float)])
  /\ forall k : Z,
       areaOf k (mergeShards
                   (map aggregateAreas
                        [[(1, Q2Qc 100)]; [(2, Q2Qc 300); (1, Q2Qc 200)]]))
       = areaOf k (aggregateAreas
                     [(1, Q2Qc 100); (2, Q2Qc 300); (1, Q2Qc 200)]).
Proof.
  split.
  - refine (proj1 (proj2 (sharding_labels_and_values (num := float)
                            [(1, 100%float); (2, 300%float); (1, 200%float)]
                            [[(1, 100%float); (1, 200%float)];
                             [(2, 300%float)]] _))
                  1 [] [[(2, 300%float)]] [(1, 100%float); (1, 200%float)]
                  Logic.eq_refl _ Logic.eq_refl).
    + cbn [List.concat app]. apply perm_skip, perm_swap.
    + intros s' [<-|[]]. reflexivity.
  - refine (proj2 (proj2 (sharding_labels_and_values (num := Qc)
                            [(1, Q2Qc 100); (2, Q2Qc 300); (1, Q2Qc 200)]
                            [[(1, Q2Qc 100)];
                             [(2, Q2Qc 300); (1, Q2Qc 200)]] _))
                  exact_arithmetic).
    apply Permutation_refl.
Defined.

(** On binary64 numbers the two ways differ by a rounding: pixels of 100 and
    200 square metres of one class give 0.0003 square kilometres at once,
    and 0.0001 + 0.0002, one unit in the last place above it, by shards. *)
Lemma sharding_not_invariant_binary64 :
  ~ (forall (pixels : list (Z * float)) (shards : list (list (Z * float))),
        Permutation (List.concat shards) pixels ->
        mergeShards (map aggregateAreas shards) = aggregateAreas pixels).
Proof.
  intros Inv.
  specialize (Inv [(0, 100%float); (0, 200%float)]
                    [[(0, 100%float)]; [(0, 200%float)]]
                    (Permutation_refl _)).
  apply (f_equal (areaOf 0)) in Inv.
  assert (D : match areaOf 0 (mergeShards
                                (map aggregateAreas
                                     [[(0, 100%float)]; [(0, 200%float)]])),
                    areaOf 0 (aggregateAreas [(0, 100%float); (0, 200%float)])
              with
              | Some x, Some y => PrimFloat.eqb x y
              | _, _ => true
              end = false) by (vm_compute; reflexivity).
  rewrite Inv in D. vm_compute in D. discriminate.
Qed.

(** C10, as the code has it: on any numbers, binary64 included, every value
    of the output is the sum of the areas of its class divided by 1,000,000,
    and the classes of the output share out the input areas, each area in
    one class once, none lost; where the arithmetic of the areas is exact the
    values of the output add up to the sum of all the input areas divided by
    1,000,000. *)
Theorem area_conservation
    {num : Type} `{Number num} (pixels : list (Z * num)) :
  (forall f : Feature num,
      In f (aggregateAreas pixels) ->
      area_sq_km f
      = divide (total (groupOf (classId f) pixels)) (of_Z 1000000))
  /\ Permutation
       (flat_map (fun f => groupOf (classId f) pixels) (aggregateAreas pixels))
       (map snd pixels)
  /\ (ExactArithmetic num ->
      totalArea (aggregateAreas pixels)
      = divide (total (map snd pixels)) (of_Z 1000000)).
Proof.
  split; [|split].
  - intros f. apply aggregateAreas_values.
  - rewrite groups_of_features. apply groups_partition.
    + apply ascending_NoDup, aggregateAreas_ascending.
    + intros c. apply aggregateAreas_classes.
  - intros Exact. unfold aggregateAreas.
    now rewrite totalArea_classAreaList, total_sums_reduceRegion.
Qed.

Lemma area_conservation_witness :
  Permutation
    (flat_map (fun f => groupOf (classId f)
                          [(1, 100%float); (0, 200%float); (1, 300%float)])
              (aggregateAreas (num := float)
                 [(1, 100%float); (0, 200%float); (1, 300%float)]))
    [100%float; 200%float; 300%float]
  /\ totalArea (aggregateAreas
                  [(1, Q2Qc 500000); (1, Q2Qc 500000); (2, Q2Qc 2000000)])
     = divide (total (map snd
                  [(1, Q2Qc 500000); (1, Q2Qc 500000); (2, Q2Qc 2000000)]))
              (of_Z 1000000).
Proof.
  split.
  - exact (proj1 (proj2 (area_conservation (num := float)
                           [(1, 100%float); (0, 200%float); (1, 300%float)]))).
  - exact (proj2 (proj2 (area_conservation (num := Qc)
                           [(1, Q2Qc 500000); (1, Q2Qc 500000);
                            (2, Q2Qc 2000000)]))
                 exact_arithmetic).
Defined.

(** On binary64 numbers the two sides differ by a rounding: pixels of 100
    and 200 square metres of classes 0 and 1 give areas 0.0001 and 0.0002,
    whose sum is not the 0.0003 that 300 / 1,000,000 is. *)
Lemma area_not_conserved_binary64 :
  ~ (forall pixels : list (Z * float),
        totalArea (aggregateAreas pixels)
        = divide (total (map snd pixels)) (of_Z 1000000)).
Proof.
  intros Inv.
  specialize (Inv [(0, 100%float); (1, 200%float)]).
  assert (D : PrimFloat.eqb
                (totalArea (aggregateAreas [(0, 100%float); (1, 200%float)]))
                (divide (total (map snd [(0, 100%float); (1, 200%float)]))
                        (of_Z 1000000))
              = false) by (vm_compute; reflexivity).
  rewrite Inv in D. vm_compute in D. discriminate.
Qed.

(** ** [maskS2clouds] on a whole pixel *)

Section MaskFacts.
Context {num : Type} `{Number num}.

Lemma select_None_iff {V : Type} (name : string) (image : ee.Image V) :
  ee.select name image = None <-> ~ In name (map fst (ee.bands image)).
Proof.
  unfold ee.select. induction (ee.bands image) as [|b bs IH]; cbn.
  - tauto.
  - destruct (String.eqb_spec (fst b) name) as [E|Hne]; cbn.
    + split; [discriminate|tauto].
    + rewrite IH. tauto.
Qed.

Lemma select_divide (name : string) (image : ee.Image Z) (c : Z) :
  ee.select name (ee.divide (num := num) image c)
  = option_map (fun v => divide (of_Z v) (of_Z c)) (ee.select name image).
Proof.
  unfold ee.select, ee.divide. cbn [ee.bands].
  induction (ee.bands image) as [|b bs IH]; cbn; [reflexivity|].
  destruct (String.eqb (fst b) name); cbn; [reflexivity|exact IH].
Qed.

(** X4: the two bit tests of [maskS2clouds] amount to one test of the value
    against the union of the two masks. *)
Theorem evaluateMask_combined_mask (q : Z) :
  evaluateMask q = (Z.land q (Z.lor cloudBitMask cirrusBitMask) =? 0).
Proof.
  rewrite evaluateMask_bits, Z.land_lor_distr_r.
  unfold cloudBitMask, cirrusBitMask. rewrite !land_bit by lia.
  destruct (Z.testbit q 10), (Z.testbit q 11); reflexivity.
Qed.

(** X1: [maskS2clouds] fails exactly on an image without a band named QA60. *)
Theorem maskS2clouds_fails_iff_no_QA60 (image : ee.Image Z) :
  maskS2clouds (num := num) image = None <->
  ~ In "QA60"%string (map fst (ee.bands image)).
Proof.
  rewrite <- select_None_iff. unfold maskS2clouds.
  destruct (ee.select "QA60" image); split; congruence.
Qed.

(** X2: the pixel that [maskS2clouds] returns is unmasked exactly when the input
    pixel was unmasked and bits 10 and 11 of its QA60 value are clear: a
    masked pixel is never unmasked, and a cloud or cirrus flag masks it. *)
Theorem maskS2clouds_unmasked (image : ee.Image Z) :
  option_map ee.unmasked (maskS2clouds (num := num) image)
  = option_map (fun qa => ee.unmasked image
                          && (negb (Z.testbit qa 10) && negb (Z.testbit qa 11)))
               (ee.select "QA60" image).
Proof.
  unfold maskS2clouds.
  destruct (ee.select "QA60" image) as [qa|]; [|reflexivity].
  unfold applyMaskAndNormalize, ee.divide, ee.updateMask.
  cbn [option_map ee.unmasked].
  change (negb (mask qa =? 0)) with (evaluateMask qa).
  now rewrite evaluateMask_bits.
Qed.

(** X3: [maskS2clouds] keeps the bands of the image, in their order and under
    their names, and divides every one of them by 10000, the QA60 band
    included. *)
Theorem maskS2clouds_bands (image : ee.Image Z) (out : ee.Image num) :
  maskS2clouds image = Some out ->
  map fst (ee.bands out) = map fst (ee.bands image)
  /\ forall name : string,
       ee.select name out
       = option_map (fun v => divide (of_Z v) (of_Z 10000))
                    (ee.select name image).
Proof.
  unfold maskS2clouds.
  destruct (ee.select "QA60" image) as [qa|]; [|discriminate].
  intros E. injection E as <-. split.
  - cbn. rewrite map_map. reflexivity.
  - intros name. unfold applyMaskAndNormalize.
    rewrite select_divide. reflexivity.
Qed.

End MaskFacts.

Lemma maskS2clouds_bands_witness :
  map fst (ee.bands
             (applyMaskAndNormalize (num := float)
                {| ee.bands := [("B4"%string, 500); ("QA60"%string, 1024)];
                   ee.unmasked := true |}
                (mask 1024)))
  = ["B4"%string; "QA60"%string]
  /\ ee.select "QA60"
       (applyMaskAndNormalize (num := float)
          {| ee.bands := [("B4"%string, 500); ("QA60"%string, 1024)];
             ee.unmasked := true |}
          (mask 1024))
     = Some (divide (of_Z 1024) (of_Z 10000)).
Proof.
  destruct (maskS2clouds_bands (num := float)
              {| ee.bands := [("B4"%string, 500); ("QA60"%string, 1024)];
                 ee.unmasked := true |}
              _ eq_refl) as [Names Values].
  split; [exact Names|exact (Values "QA60"%string)].
Defined.

(** ** Normalization loses nothing on 16-bit values *)

Lemma upto_In (n : nat) (from v : Z) :
  from <= v < from + Z.of_nat n -> In v (upto n from).
Proof.
  revert from. induction n as [|n IH]; intros from Hv.
  - cbn in Hv. lia.
  - cbn [upto]. destruct (Z.eq_dec from v) as [E|Hne]; [now left|].
    right. apply IH. lia.
Qed.

Lemma denormalize_normalize (v : Z) :
  0 <= v <= 65535 ->
  denormalize (divide (of_Z v) (of_Z 10000)) = v.
Proof.
  intros Hv.
  assert (All : forallb (fun v => denormalize (divide (of_Z v) (of_Z 10000))
                                  =? v)
                        (upto (Z.to_nat 65536) 0) = true)
    by (vm_compute; reflexivity).
  rewrite forallb_forall in All.
  apply Z.eqb_eq, All, upto_In. lia.
Qed.

(** X5: on binary64 numbers, two different raw values of a 16-bit band are
    normalized to two different numbers. *)
Theorem normalize_injective_16bit (v w : Z) :
  0 <= v <= 65535 -> 0 <= w <= 65535 ->
  divide (num := float) (of_Z v) (of_Z 10000)
  = divide (num := float) (of_Z w) (of_Z 10000) ->
  v = w.
Proof.
  intros Hv Hw E.
  rewrite <- (denormalize_normalize v Hv), <- (denormalize_normalize w Hw).
  now rewrite E.
Qed.

Lemma normalize_injective_16bit_witness : 65535 = 65535.
Proof.
  apply (normalize_injective_16bit 65535 65535); [lia|lia|reflexivity].
Defined.

(** ** Comparisons of binary64 numbers *)

Lemma SFcompare_antisym (x y : SpecFloat.spec_float) :
  SpecFloat.SFcompare y x = option_map CompOpp (SpecFloat.SFcompare x y).
Proof.
  destruct x as [sx|sx| |sx mx ex], y as [sy|sy| |sy my ey]; cbn;
    try destruct sx; try destruct sy; try reflexivity;
    rewrite (Z.compare_antisym ex ey);
    destruct (ex ?= ey); cbn; try reflexivity;
    rewrite (Pos.compare_cont_antisym mx my Eq); reflexivity.
Qed.

Lemma SFcompare_None (x y : SpecFloat.spec_float) :
  SpecFloat.SFcompare x y = None ->
  x = SpecFloat.S754_nan \/ y = SpecFloat.S754_nan.
Proof.
  destruct x as [sx|sx| |sx mx ex], y as [sy|sy| |sy my ey]; cbn;
    auto; discriminate.
Qed.

Lemma is_nan_false (x : float) :
  PrimFloat.is_nan x = false -> FloatOps.Prim2SF x <> SpecFloat.S754_nan.
Proof.
  unfold PrimFloat.is_nan. rewrite FloatAxioms.eqb_spec.
  intros E N. rewrite N in E. discriminate.
Qed.

Lemma ltb_excludes_leb (r s : float) :
  PrimFloat.ltb r s = true -> PrimFloat.leb s r = false.
Proof.
  rewrite FloatAxioms.ltb_spec, FloatAxioms.leb_spec.
  unfold SpecFloat.SFltb, SpecFloat.SFleb.
  rewrite (SFcompare_antisym (FloatOps.Prim2SF r) (FloatOps.Prim2SF s)).
  destruct (SpecFloat.SFcompare (FloatOps.Prim2SF r) (FloatOps.Prim2SF s))
    as [[| |]|]; cbn; congruence.
Qed.

Lemma leb_or_ltb (r s : float) :
  PrimFloat.is_nan r = false -> PrimFloat.is_nan s = false ->
  PrimFloat.leb s r = negb (PrimFloat.ltb r s).
Proof.
  intros Nr Ns. apply is_nan_false in Nr, Ns.
  rewrite FloatAxioms.ltb_spec, FloatAxioms.leb_spec.
  unfold SpecFloat.SFltb, SpecFloat.SFleb.
  rewrite (SFcompare_antisym (FloatOps.Prim2SF r) (FloatOps.Prim2SF s)).
  destruct (SpecFloat.SFcompare (FloatOps.Prim2SF r) (FloatOps.Prim2SF s))
    as [[| |]|] eqn:C; cbn; try reflexivity.
  apply SFcompare_None in C. tauto.
Qed.

(** ** The training and testing sets *)

Lemma filter_complement_Permutation {A : Type} (f g : A -> bool) (l : list A) :
  (forall x, In x l -> g x = negb (f x)) ->
  Permutation (filter f l ++ filter g l) l.
Proof.
  induction l as [|x l IH]; intros Hc; cbn.
  - constructor.
  - rewrite (Hc x (or_introl Logic.eq_refl)).
    assert (IH' := IH (fun y Hy => Hc y (or_intror Hy))).
    destruct (f x); cbn.
    + now constructor.
    + apply Permutation_sym, Permutation_cons_app, Permutation_sym, IH'.
Qed.

(** X8: no sample serves both for training and for testing: a sample of the
    training set is not in the testing set. *)
Theorem trainingSet_testingSet_disjoint (withRandom : list Sample) (s : Sample) :
  In s (trainingSet withRandom) -> ~ In s (testingSet withRandom).
Proof.
  unfold trainingSet, testingSet. rewrite !filter_In.
  intros [_ Lt] [_ Ge]. apply ltb_excludes_leb in Lt. congruence.
Qed.

Lemma trainingSet_testingSet_disjoint_witness :
  ~ In {| inputProperties := []; classProperty := 2; random := 0.25 |}
       (testingSet
          [{| inputProperties := []; classProperty := 2; random := 0.25 |};
           {| inputProperties := []; classProperty := 0; random := 0.75 |}]).
Proof.
  apply trainingSet_testingSet_disjoint. left. reflexivity.
Defined.

(** X9: when no value of the random column is NaN, the training and the testing
    set together are the samples, each of them once: no sample is dropped
    and the two sizes add up to the number of samples. *)
Theorem trainingSet_testingSet_partition (withRandom : list Sample) :
  (forall s, In s withRandom -> PrimFloat.is_nan (random s) = false) ->
  Permutation (trainingSet withRandom ++ testingSet withRandom) withRandom
  /\ (List.length (trainingSet withRandom) + List.length (testingSet withRandom)
      = List.length withRandom)%nat.
Proof.
  intros NoNaN.
  assert (P : Permutation (trainingSet withRandom ++ testingSet withRandom)
                          withRandom).
  { apply filter_complement_Permutation. intros s Hs.
    apply leb_or_ltb; [now apply NoNaN|reflexivity]. }
  split; [exact P|].
  rewrite <- length_app. now apply Permutation_length.
Qed.

Lemma trainingSet_testingSet_partition_witness :
  (List.length (trainingSet
             [{| inputProperties := []; classProperty := 2; random := 0.25 |};
              {| inputProperties := []; classProperty := 0; random := 0.75 |};
              {| inputProperties := []; classProperty := 1; random := 0.5 |}])
   + List.length (testingSet
               [{| inputProperties := []; classProperty := 2; random := 0.25 |};
                {| inputProperties := []; classProperty := 0; random := 0.75 |};
                {| inputProperties := []; classProperty := 1; random := 0.5 |}])
   = 3)%nat.
Proof.
  apply trainingSet_testingSet_partition.
  intros s [E | [E | [E | []]]]; subst s; reflexivity.
Defined.

(** ** The training polygons *)

Section PolygonFacts.
Context {G : Type}.

Lemma get_set_same (key : string) (value : PropertyValue) (f : Polygon G) :
  eeFeature.get key (eeFeature.set key value f) = Some value.
Proof. unfold eeFeature.get. cbn. now rewrite String.eqb_refl. Qed.

Lemma get_set_other (key key' : string) (value : PropertyValue)
    (f : Polygon G) :
  key' <> key ->
  eeFeature.get key' (eeFeature.set key value f) = eeFeature.get key' f.
Proof.
  intros Hne. unfold eeFeature.get, eeFeature.set. cbn [properties find fst].
  destruct (String.eqb_spec key key') as [E|_]; [congruence|].
  induction (properties f) as [|p ps IH]; cbn; [reflexivity|].
  destruct (String.eqb_spec (fst p) key) as [E|Hp]; cbn.
  - destruct (String.eqb_spec (fst p) key') as [E'|_]; [congruence|exact IH].
  - destruct (String.eqb (fst p) key'); [reflexivity|exact IH].
Qed.

Lemma map_get_set_other (key : string) (value : PropertyValue)
    (layer : list (Polygon G)) :
  key <> "class"%string ->
  map (eeFeature.get key)
      (map (fun f => eeFeature.set "class" value f) layer)
  = map (eeFeature.get key) layer.
Proof.
  intros Hne. rewrite map_map. apply map_ext.
  intros f. now apply get_set_other.
Qed.

Lemma map_get_merge (key : string) (c1 c2 : list (Polygon G)) :
  map (eeFeature.get key) (eeFeatureCollection.merge c1 c2)
  = map (eeFeature.get key) c1 ++ map (eeFeature.get key) c2.
Proof.
  unfold eeFeatureCollection.merge. rewrite map_app, !map_map. reflexivity.
Qed.

Lemma map_geometry_merge (c1 c2 : list (Polygon G)) :
  map geometry (eeFeatureCollection.merge c1 c2)
  = map geometry c1 ++ map geometry c2.
Proof.
  unfold eeFeatureCollection.merge. rewrite map_app, !map_map. reflexivity.
Qed.

Lemma map_index_merge (c1 c2 : list (Polygon G)) :
  map index (eeFeatureCollection.merge c1 c2)
  = map (String.append "1_") (map index c1)
    ++ map (String.append "2_") (map index c2).
Proof.
  unfold eeFeatureCollection.merge. rewrite map_app, !map_map. reflexivity.
Qed.

Lemma map_index_set (key : string) (value : PropertyValue)
    (layer : list (Polygon G)) :
  map index (map (fun f => eeFeature.set key value f) layer) = map index layer.
Proof. rewrite map_map. reflexivity. Qed.

Lemma map_geometry_set (key : string) (value : PropertyValue)
    (layer : list (Polygon G)) :
  map geometry (map (fun f => eeFeature.set key value f) layer)
  = map geometry layer.
Proof. rewrite map_map. reflexivity. Qed.

(** X6: the class of a training polygon is the code of its layer, 0 for water,
    1 for vegetation, 2 for built-up and 3 for barren, whatever ['class']
    property the drawn feature had; the polygons come layer after layer. *)
Theorem trainingPolygons_classes (water vegetation builtup barren : list (Polygon G)) :
  map (eeFeature.get "class")
      (trainingPolygons water vegetation builtup barren)
  = map (fun _ => Some (PNumber 0)) water
    ++ map (fun _ => Some (PNumber 1)) vegetation
    ++ map (fun _ => Some (PNumber 2)) builtup
    ++ map (fun _ => Some (PNumber 3)) barren.
Proof.
  unfold trainingPolygons.
  rewrite !map_get_merge, !map_map, <- !app_assoc.
  repeat f_equal; apply map_ext; intros f; apply get_set_same.
Qed.

(** X7: labelling keeps every drawn polygon once, in the order of the layers,
    with its geometry and with all its properties other than ['class'] and
    the id; the three merges put the prefixes 1_1_1_, 1_1_2_, 1_2_ and 2_
    before the ids of the water, vegetation, built-up and barren polygons. *)
Theorem trainingPolygons_keeps_polygons
    (water vegetation builtup barren : list (Polygon G)) :
  map geometry (trainingPolygons water vegetation builtup barren)
  = map geometry (water ++ vegetation ++ builtup ++ barren)
  /\ (forall key : string,
        key <> "class"%string -> key <> "system:index"%string ->
        map (eeFeature.get key)
            (trainingPolygons water vegetation builtup barren)
        = map (eeFeature.get key) (water ++ vegetation ++ builtup ++ barren))
  /\ map index (trainingPolygons water vegetation builtup barren)
     = map (String.append "1_1_1_") (map index water)
       ++ map (String.append "1_1_2_") (map index vegetation)
       ++ map (String.append "1_2_") (map index builtup)
       ++ map (String.append "2_") (map index barren).
Proof.
  unfold trainingPolygons. split; [|split].
  - rewrite !map_geometry_merge, !map_geometry_set, !map_app, <- !app_assoc.
    reflexivity.
  - intros key Hne _.
    rewrite !map_get_merge, !map_app, <- !app_assoc.
    now rewrite !map_get_set_other by assumption.
  - rewrite !map_index_merge, !map_index_set, !map_app, !map_map,
      <- !app_assoc.
    reflexivity.
Qed.

End PolygonFacts.

(** ** More on the area statistics *)

Section ReportFacts.
Context {num : Type} `{Number num}.

Lemma groupOf_filter (c : Z) (pixels : list (Z * num)) :
  groupOf c (filter (fun p => fst p =? c) pixels) = groupOf c pixels.
Proof.
  unfold groupOf. f_equal.
  induction pixels as [|p pixels IH]; cbn; [reflexivity|].
  destruct (fst p =? c) eqn:E; cbn; rewrite ?E, IH; reflexivity.
Qed.

(** X10: the area reported for a class is computed from the pixels of that class
    alone: the pixels of the other classes can be removed from the input
    without changing it, on any numbers. *)
Theorem aggregateAreas_class_independent (pixels : list (Z * num)) (c : Z) :
  areaOf c (aggregateAreas pixels)
  = areaOf c (aggregateAreas (filter (fun p => fst p =? c) pixels)).
Proof.
  rewrite !aggregateAreas_refines_spec. unfold aggregateAreas_spec.
  now rewrite groupOf_filter.
Qed.

(** X11: the classes of the report do not depend on the order in which the
    pixels are visited: permuting the input gives the same classes, each
    once. *)
Theorem aggregateAreas_classes_Permutation (pixels pixels' : list (Z * num)) :
  Permutation pixels pixels' ->
  Permutation (map classId (aggregateAreas pixels))
              (map classId (aggregateAreas pixels')).
Proof.
  intros P.
  apply NoDup_Permutation;
    try (apply ascending_NoDup, aggregateAreas_ascending).
  intros k. rewrite !aggregateAreas_classes.
  split; apply Permutation_in, Permutation_map;
    [exact P|apply Permutation_sym, P].
Qed.

(** X12: with the four class codes of the script, 0 to 3, the report has at most
    four rows. *)
Theorem aggregateAreas_at_most_four_rows (pixels : list (Z * num)) :
  (forall p, In p pixels -> 0 <= fst p <= 3) ->
  (List.length (aggregateAreas pixels) <= 4)%nat.
Proof.
  intros Range.
  rewrite <- (length_map classId).
  change 4%nat with (List.length [0; 1; 2; 3]).
  apply NoDup_incl_length.
  - apply ascending_NoDup, aggregateAreas_ascending.
  - intros k Hk. apply aggregateAreas_classes, in_map_iff in Hk.
    destruct Hk as [p [<- Hp]]. specialize (Range p Hp). cbn.
    assert (C : fst p = 0 \/ fst p = 1 \/ fst p = 2 \/ fst p = 3) by lia.
    intuition.
Qed.

End ReportFacts.

Lemma aggregateAreas_classes_Permutation_witness :
  Permutation
    (map classId (aggregateAreas (num := float)
                    [(2, 100%float); (0, 200%float); (2, 300%float)]))
    (map classId (aggregateAreas (num := float)
                    [(0, 200%float); (2, 300%float); (2, 100%float)])).
Proof.
  apply (aggregateAreas_classes_Permutation (num := float)).
  apply (Permutation_cons_app [(0, 200%float); (2, 300%float)] []).
  apply Permutation_refl.
Defined.

Lemma aggregateAreas_at_most_four_rows_witness :
  (List.length (aggregateAreas (num := float)
                  [(3%Z, 100%float); (0%Z, 100%float); (3%Z, 100%float);
                   (1%Z, 100%float); (2%Z, 100%float)]) <= 4)%nat.
Proof.
  apply (aggregateAreas_at_most_four_rows (num := float)).
  intros p [E | [E | [E | [E | [E | []]]]]]; subst p; cbn; lia.
Defined.
